(** * Adalanche, local-machine analyzer: SID remapping and edge probabilities

    Shallow embedding of
    [modules/integrations/localmachine/analyze/analyzer.go]:
    the package-level [var] block (attribute and edge registrations with
    their probability calculators) and [MapSID].

    The packages [engine] and [windowssecurity] that the analyzer imports
    are outside the sources at hand; what the analyzer uses of them is
    modelled from the design document and marked as such. *)

From Stdlib Require Import ZArith NArith List Lia.
From stdpp Require Import base decidable option list gmap strings.

Local Open Scope Z_scope.

(** ** Package [windowssecurity] *)

Module windowssecurity.

(** Modelled from the spec: the [SID] type and its methods live in
    [modules/windowssecurity], which is not among the sources.  The
    design document describes a security identifier as "a structured
    value with an ordered sequence of numeric components" with four
    primitives: component count, last-component extraction, prefix
    stripping and prefix append.  Go compares two [SID] values with
    [==], i.e. structurally. *)
Definition SID : Type := list N.

(** Modelled from the spec: "component count".  The count is a Go [int];
    it is far below [2^63], so [Components()+1] does not wrap. *)
Definition Components (sid : SID) : Z := Z.of_nat (length sid).

(** Modelled from the spec: "prefix-stripping (drop last component)".
    A SID without components stays as it is. *)
Definition StripRID (sid : SID) : SID := removelast sid.

(** Modelled from the spec: "last-component extraction (relative
    identifier)"; [0] for a SID without components. *)
Definition RID (sid : SID) : N := default 0%N (last sid).

(** Modelled from the spec: "prefix-append (attach a new relative
    identifier to a different prefix)". *)
Definition AddComponent (sid : SID) (component : N) : SID :=
  sid ++ [component].

(** Modelled from the spec: [SID.IsBlank] is declared in
    [modules/windowssecurity]; a blank SID is one without components. *)
Definition IsBlank (sid : SID) : bool := bool_decide (sid = []).

(** Modelled from the spec: the well-known principals the disabled
    traversal of the [RDPRights] calculator looks for; their declarations
    are in [modules/windowssecurity].  The values are those Windows
    assigns: S-1-5-4, S-1-5-14, S-1-5-11 and S-1-1-0. *)
Definition InteractiveSID : SID := [1; 5; 4]%N.
Definition RemoteInteractiveSID : SID := [1; 5; 14]%N.
Definition AuthenticatedUsersSID : SID := [1; 5; 11]%N.
Definition EveryoneSID : SID := [1; 1; 0]%N.

End windowssecurity.

(** ** Package [engine] *)

Module engine.
Import windowssecurity.

(** *** Symbol registries *)

(** Modelled from the spec: the registries behind [NewAttribute] and
    [NewEdge] live in [modules/engine], which is not among the sources.
    "SymbolRegistry: interns a name string to a stable, immutable numeric
    handle, globally unique per process, created on first use"; an empty
    name "is rejected with a configuration error at startup". *)
Inductive Result (A : Type) : Type :=
| Ok (a : A)
| ConfigError (msg : string).
Arguments Ok {A} a.
Arguments ConfigError {A} msg.

Record SymbolRegistry : Type := mkRegistry {
  handles : gmap string nat;   (* name -> handle *)
  next : nat                   (* handle of the next new name *)
}.

Definition emptyRegistry : SymbolRegistry :=
  {| handles := ∅; next := 0 |}.

(** Modelled from the spec: [Register(name) -> handle], one caller at a
    time (the mutual exclusion of concurrent callers is not modelled). *)
Definition Register (reg : SymbolRegistry) (name : string)
  : Result nat * SymbolRegistry :=
  if decide (name = EmptyString) then
    (ConfigError "registering an empty name", reg)
  else
    match handles reg !! name with
    | Some h => (Ok h, reg)
    | None =>
        (Ok (next reg),
         {| handles := <[name := next reg]> (handles reg);
            next := S (next reg) |})
    end.

(** Registering a batch of names one after the other, keeping only the
    registry. *)
Definition RegisterAll (reg : SymbolRegistry) (names : list string)
  : SymbolRegistry :=
  foldl (fun r name => (Register r name).2) reg names.

(** The registry invariant: every handle in use is below [next], and no
    two names share a handle. *)
Definition registry_ok (reg : SymbolRegistry) : Prop :=
  (∀ name h, handles reg !! name = Some h → h < next reg)%nat
  ∧ (∀ n1 n2 h, handles reg !! n1 = Some h → handles reg !! n2 = Some h →
                n1 = n2).

(** *** Objects, edges and probability calculators *)

(** Modelled from the spec: a probability is a percentage, "probability ∈
    [0,100]"; the Go type [engine.Probability] is an integer type whose
    declaration is not among the sources. *)
Definition Probability : Type := Z.
Definition MINPROBABILITY : Probability := 0.
Definition MAXPROBABILITY : Probability := 100.

Definition Attribute : Type := nat.   (* attribute handle *)
Definition Edge : Type := nat.        (* edge-kind handle *)

(** Modelled from the spec: "edge-kind bitmask: a fixed-width integer
    where bit i means edge kind i is present between this pair". *)
Definition EdgeBitmap : Type := N.

Definition IsSet (eb : EdgeBitmap) (e : Edge) : bool :=
  N.testbit eb (N.of_nat e).

(** A [*engine.Object]: the address of a node owned by the [Objects]
    container. *)
Definition Object : Type := N.

Inductive EdgeDirection : Type := Out | In.

(** What a calculator body can do besides computing: the three calls
    that occur in the analyzer's (disabled) traversal,
    [target.Edges(engine.In).Range], [potential.SID()] and
    [edge.MaxProbability(potential, target)].  A calculator is a tree of
    such calls ending in the probability it returns. *)
Inductive Calc (A : Type) : Type :=
| Return (a : A)
| Edges_Range (o : Object) (d : EdgeDirection)
              (k : list (Object * EdgeBitmap) → Calc A)
| Object_SID (o : Object) (k : SID → Calc A)
| EdgeBitmap_MaxProbability (edge : EdgeBitmap) (source target : Object)
                            (k : Probability → Calc A).
Arguments Return {A} a.
Arguments Edges_Range {A} o d k.
Arguments Object_SID {A} o k.
Arguments EdgeBitmap_MaxProbability {A} edge source target k.

(** [func(source, target *engine.Object) engine.Probability] *)
Definition ProbabilityCalculatorFunction : Type :=
  Object → Object → Calc Probability.

(** Modelled from the spec: "Edge Kind Descriptor: metadata attached to
    an interned edge handle: human label, zero or more classification
    tags, and an optional probability calculator". *)
Record EdgeInfo : Type := mkEdgeInfo {
  Name : string;
  Description : string;
  Tags : list string;
  probability : option ProbabilityCalculatorFunction
}.

(** The process-wide tables the [var] block of a package writes to. *)
Record Registries : Type := mkRegistries {
  attributenames : SymbolRegistry;
  edgenames : SymbolRegistry;
  edgeInfos : list EdgeInfo        (* indexed by edge handle *)
}.

Definition emptyRegistries : Registries :=
  {| attributenames := emptyRegistry;
     edgenames := emptyRegistry;
     edgeInfos := [] |}.

(** *** Startup code: state and configuration errors *)

Definition Init (A : Type) : Type := Registries → Result (A * Registries).

Definition ret {A} (a : A) : Init A := fun st => Ok (a, st).

Definition bind {A B} (m : Init A) (f : A → Init B) : Init B :=
  fun st =>
    match m st with
    | Ok (a, st') => f a st'
    | ConfigError msg => ConfigError msg
    end.

(** Modelled from the spec: [engine.NewAttribute(name)]. *)
Definition NewAttribute (name : string) : Init Attribute :=
  fun st =>
    match Register (attributenames st) name with
    | (Ok h, reg) =>
        Ok (h, {| attributenames := reg;
                  edgenames := edgenames st;
                  edgeInfos := edgeInfos st |})
    | (ConfigError msg, _) => ConfigError msg
    end.

(** Modelled from the spec: [engine.NewEdge(name)]; a name seen for the
    first time gets a descriptor without tags and without calculator. *)
Definition NewEdge (name : string) : Init Edge :=
  fun st =>
    match Register (edgenames st) name with
    | (Ok h, reg) =>
        let infos :=
          match edgeInfos st !! h with
          | Some _ => edgeInfos st
          | None => edgeInfos st ++
              [{| Name := name; Description := EmptyString;
                  Tags := []; probability := None |}]
          end in
        Ok (h, {| attributenames := attributenames st;
                  edgenames := reg;
                  edgeInfos := infos |})
    | (ConfigError msg, _) => ConfigError msg
    end.

(** The three descriptor setters write to the descriptor of their
    receiver and return the receiver, so that calls can be chained. *)
Definition updateInfo (f : EdgeInfo → EdgeInfo) (e : Edge) : Init Edge :=
  fun st =>
    match edgeInfos st !! e with
    | Some info =>
        Ok (e, {| attributenames := attributenames st;
                  edgenames := edgenames st;
                  edgeInfos := <[e := f info]> (edgeInfos st) |})
    | None => ConfigError "edge is not registered"
    end.

(** Modelled from the spec: [Edge.Tag(t)], tags form a set. *)
Definition Tag (t : string) : Edge → Init Edge :=
  updateInfo (fun info =>
    {| Name := Name info; Description := Description info;
       Tags := if bool_decide (t ∈ Tags info) then Tags info
               else Tags info ++ [t];
       probability := probability info |}).

(** Modelled from the spec: [Edge.Describe(text)]. *)
Definition Describe (text : string) : Edge → Init Edge :=
  updateInfo (fun info =>
    {| Name := Name info; Description := text;
       Tags := Tags info; probability := probability info |}).

(** Modelled from the spec: [Edge.RegisterProbabilityCalculator(f)]. *)
Definition RegisterProbabilityCalculator
  (f : ProbabilityCalculatorFunction) : Edge → Init Edge :=
  updateInfo (fun info =>
    {| Name := Name info; Description := Description info;
       Tags := Tags info; probability := Some f |}).

Definition HasTag (infos : list EdgeInfo) (e : Edge) (t : string) : bool :=
  match infos !! e with
  | Some info => bool_decide (t ∈ Tags info)
  | None => false
  end.

(** *** Evaluating calculators *)

(** The read-only part of the graph a calculator can look at. *)
Record View : Type := mkView {
  SIDof : Object → SID;
  EdgesOf : Object → EdgeDirection → list (Object * EdgeBitmap)
}.

(** Running a calculator body: reads are answered from the view, a call
    of [MaxProbability] by [maxProbability], which may fail to return. *)
Fixpoint run {A : Type}
    (maxProbability : EdgeBitmap → Object → Object → option Probability)
    (v : View) (c : Calc A) : option A :=
  match c with
  | Return a => Some a
  | Edges_Range o d k => run maxProbability v (k (EdgesOf v o d))
  | Object_SID o k => run maxProbability v (k (SIDof v o))
  | EdgeBitmap_MaxProbability eb s t k =>
      match maxProbability eb s t with
      | Some p => run maxProbability v (k p)
      | None => None
      end
  end.

(** Modelled from the spec: [EdgeBitmap.MaxProbability], the largest
    probability among the edge kinds set in the bitmap. *)
Definition maxOver (edgeProbability : Edge → option Probability)
    (kinds : nat) (eb : EdgeBitmap) : option Probability :=
  foldl (fun acc e =>
           if IsSet eb e then
             match acc, edgeProbability e with
             | Some m, Some p => Some (Z.max m p)
             | _, _ => None
             end
           else acc)
        (Some MINPROBABILITY) (seq 0 kinds).

(** Modelled from the spec: the single dispatch point, "default (no
    calculator) is treated as maximal probability".  A calculator that
    calls [MaxProbability] re-enters the dispatch; [fuel] bounds how deep
    calculator invocations may nest, and [None] means the bound was
    exceeded. *)
Fixpoint EdgeProbability (fuel : nat) (infos : list EdgeInfo) (v : View)
    (e : Edge) (source target : Object) : option Probability :=
  match fuel with
  | O => None
  | S fuel' =>
      match infos !! e ≫= probability with
      | Some f =>
          run (fun eb s t =>
                 maxOver (fun e' => EdgeProbability fuel' infos v e' s t)
                         (length infos) eb)
              v (f source target)
      | None => Some MAXPROBABILITY
      end
  end.

(** A calculator body that never calls [MaxProbability], whatever the
    reads return. *)
Inductive NoDispatch {A : Type} : Calc A → Prop :=
| nd_Return a : NoDispatch (Return a)
| nd_Edges_Range o d k :
    (∀ l, NoDispatch (k l)) → NoDispatch (Edges_Range o d k)
| nd_Object_SID o k :
    (∀ sid, NoDispatch (k sid)) → NoDispatch (Object_SID o k).

(** The calculators registered in a descriptor table, and the tables all
    of whose calculators stay away from [MaxProbability]. *)
Definition calculators (infos : list EdgeInfo)
  : list ProbabilityCalculatorFunction :=
  omap probability infos.

Definition DispatchFree (infos : list EdgeInfo) : Prop :=
  Forall (λ f, ∀ source target, NoDispatch (f source target))
         (calculators infos).

(** *** Path score *)

(** Modelled from the spec: the path/query engine is not among the
    sources.  A returned path is "a sequence of (object, outgoing edge
    kind, probability-to-next) triples terminated by the target"; one step
    of it is kept here as source, edge kind and target. *)
Record PathStep : Type := mkStep {
  from : Object;
  via : Edge;
  to : Object
}.

(** Modelled from the spec: "an informative tag marks edges that carry no
    offensive value (never contributing to path probability)". *)
Definition Informative (infos : list EdgeInfo) (e : Edge) : bool :=
  HasTag infos e "Informative".

Definition Scored (infos : list EdgeInfo) (path : list PathStep)
  : list PathStep :=
  filter (λ st, Informative infos (via st) = false) path.

Definition StepProbability (fuel : nat) (infos : list EdgeInfo) (v : View)
    (st : PathStep) : option Probability :=
  EdgeProbability fuel infos v (via st) (from st) (to st).

(** The smallest of a list of probabilities; a list without entries
    constrains nothing and gives the maximal probability. *)
Definition minimum (ps : list Probability) : Probability :=
  match ps with
  | [] => MAXPROBABILITY
  | p :: ps' => foldl Z.min p ps'
  end.

(** Modelled from the spec: "each edge's probability is evaluated lazily
    via its calculator at traversal time"; "path score is the minimum edge
    probability along the path, unless edges are tagged informative, which
    are excluded". *)
Definition PathScore (fuel : nat) (infos : list EdgeInfo) (v : View)
    (path : list PathStep) : option Probability :=
  minimum <$> mapM (StepProbability fuel infos v) (Scored infos path).

End engine.


(** ** Package [analyze] *)

Module analyze.
Import windowssecurity engine.

(** [do x <- m; k] runs [m], names its result and goes on with [k];
    [m |> f] passes the result of [m] on to [f], as a chained method call
    does. *)
#[local] Notation "'do' x <- m ; k" := (bind m (fun x => k))
  (at level 10, x name, m at level 100, k at level 200, only parsing).
#[local] Notation "m |> f" := (bind m f)
  (at level 50, left associativity, only parsing).

(** The package-level variables of analyzer.go, lines 8-86.
    ([ObjectTypeShare] is registered in a third table of [engine] that
    no probability or remapping code reads; it is left out.) *)
Record Vars : Type := mkVars {
  LocalMachineSID : Attribute;
  LocalMachineSIDOriginal : Attribute;
  AbsolutePath : Attribute;
  ShareType : Attribute;
  ServiceStart : Attribute;
  ServiceType : Attribute;

  EdgeLocalAdminRights : Edge;
  EdgeLocalRDPRights : Edge;
  EdgeLocalDCOMRights : Edge;
  EdgeLocalSMSAdmins : Edge;
  EdgeLocalSessionLastDay : Edge;
  EdgeLocalSessionLastWeek : Edge;
  EdgeLocalSessionLastMonth : Edge;
  EdgeHasServiceAccountCredentials : Edge;
  EdgeHasAutoAdminLogonCredentials : Edge;
  EdgeRunsExecutable : Edge;
  EdgeHosts : Edge;
  EdgeExecuted : Edge;
  EdgeMemberOfGroup : Edge;
  EdgeFileWrite : Edge;
  EdgeFileRead : Edge;
  EdgeShares : Edge;
  EdgeRegistryOwns : Edge;
  EdgeRegistryWrite : Edge;
  EdgeRegistryModifyDACL : Edge;
  EdgeRegistryModifyOwner : Edge;

  EdgeSeBackupPrivilege : Edge;
  EdgeSeRestorePrivilege : Edge;
  EdgeSeTakeOwnershipPrivilege : Edge;

  EdgeSeAssignPrimaryToken : Edge;
  EdgeSeCreateToken : Edge;
  EdgeSeDebug : Edge;
  EdgeSeImpersonate : Edge;
  EdgeSeLoadDriver : Edge;
  EdgeSeManageVolume : Edge;
  EdgeSeTakeOwnership : Edge;
  EdgeSeTrustedCredManAccess : Edge;
  EdgeSeTcb : Edge;

  EdgeSeNetworkLogonRight : Edge;

  EdgeSIDCollision : Edge;

  DNSHostname : Attribute;
  EdgeControlsUpdates : Edge;
  WUServer : Attribute;
  SCCMServer : Attribute;

  EdgePublishes : Edge
}.

(** analyzer.go, lines 17-35: the calculator of [RDPRights].  The
    traversal of the target's inbound edges is commented out in the
    source ("ENDLESS LOOPS"), so [probability] still holds its zero value
    when it is compared with 30. *)
Definition RDPRightsProbability : ProbabilityCalculatorFunction :=
  fun source target =>
    let probability : Probability := 0 in
    let probability := if probability <? 30 then 30 else probability in
    Return probability.

(** analyzer.go, lines 19-30: the traversal the source keeps commented
    out under the heading "ENDLESS LOOPS", as the calculator would read
    with it enabled.  [Range] visits the inbound edges of the target until
    the callback returns [false].  It is registered nowhere; it is kept
    to show what the constant floor replaces. *)
Definition RDPRightsTraversal : ProbabilityCalculatorFunction :=
  fun source target =>
    let finish (probability : Probability) : Calc Probability :=
      Return (if probability <? 30 then 30 else probability) in
    Edges_Range target In (fun edges =>
      (fix Range (l : list (Object * EdgeBitmap)) : Calc Probability :=
         match l with
         | [] => finish 0
         | (potential, edge) :: rest =>
             Object_SID potential (fun sid =>
               if IsBlank sid then
                 Range rest (* continue *)
               else if bool_decide (sid = InteractiveSID)
                       || bool_decide (sid = RemoteInteractiveSID)
                       || bool_decide (sid = AuthenticatedUsersSID)
                       || bool_decide (sid = EveryoneSID) then
                 EdgeBitmap_MaxProbability edge potential target
                   (fun probability => finish probability (* break *))
               else
                 Range rest)
         end) edges).

(** analyzer.go, lines 8-86, in source order. *)
Definition vars : Init Vars :=
  do LocalMachineSID <- NewAttribute "localMachineSID";
  do LocalMachineSIDOriginal <- NewAttribute "localMachineSIDOriginal";
  do AbsolutePath <- NewAttribute "absolutePath";
  do ShareType <- NewAttribute "shareType";
  do ServiceStart <- NewAttribute "serviceStart";
  do ServiceType <- NewAttribute "serviceType";

  do EdgeLocalAdminRights <- NewEdge "AdminRights" |> Tag "Granted";
  do EdgeLocalRDPRights <-
    NewEdge "RDPRights" |> RegisterProbabilityCalculator RDPRightsProbability
      |> Tag "Granted" |> Tag "Pivot";
  do EdgeLocalDCOMRights <-
    NewEdge "DCOMRights"
      |> RegisterProbabilityCalculator (λ source target, Return 50)
      |> Tag "Granted";
  do EdgeLocalSMSAdmins <-
    NewEdge "SMSAdmins"
      |> RegisterProbabilityCalculator (λ source target, Return 50)
      |> Tag "Granted";
  do EdgeLocalSessionLastDay <-
    NewEdge "SessionLastDay"
      |> RegisterProbabilityCalculator (λ source target, Return 80)
      |> Tag "Pivot";
  do EdgeLocalSessionLastWeek <-
    NewEdge "SessionLastWeek"
      |> RegisterProbabilityCalculator (λ source target, Return 55)
      |> Tag "Pivot";
  do EdgeLocalSessionLastMonth <-
    NewEdge "SessionLastMonth"
      |> RegisterProbabilityCalculator (λ source target, Return 30)
      |> Tag "Pivot";
  do EdgeHasServiceAccountCredentials <- NewEdge "SvcAccntCreds" |> Tag "Pivot";
  do EdgeHasAutoAdminLogonCredentials <-
    NewEdge "AutoAdminLogonCreds" |> Tag "Pivot";
  do EdgeRunsExecutable <- NewEdge "RunsExecutable";
  do EdgeHosts <- NewEdge "Hosts";
  do EdgeExecuted <- NewEdge "Executed";
  do EdgeMemberOfGroup <- NewEdge "MemberOfGroup";
  do EdgeFileWrite <- NewEdge "FileWrite";
  do EdgeFileRead <- NewEdge "FileRead";
  do EdgeShares <- NewEdge "Shares" |> Describe "Machine offers a file share";
  do EdgeRegistryOwns <- NewEdge "RegistryOwns";
  do EdgeRegistryWrite <- NewEdge "RegistryWrite";
  do EdgeRegistryModifyDACL <- NewEdge "RegistryModifyDACL";
  do EdgeRegistryModifyOwner <- NewEdge "RegistryModifyOwner";

  do EdgeSeBackupPrivilege <- NewEdge "SeBackupPrivilege";
  do EdgeSeRestorePrivilege <- NewEdge "SeRestorePrivilege";
  do EdgeSeTakeOwnershipPrivilege <- NewEdge "SeTakeOwnershipPrivilege";

  do EdgeSeAssignPrimaryToken <- NewEdge "SeAssignPrimaryToken" |> Tag "Pivot";
  do EdgeSeCreateToken <- NewEdge "SeCreateToken" |> Tag "Pivot";
  do EdgeSeDebug <- NewEdge "SeDebug" |> Tag "Pivot";
  do EdgeSeImpersonate <-
    NewEdge "SeImpersonate"
      |> RegisterProbabilityCalculator (λ source target, Return 20)
      |> Tag "Pivot";
  do EdgeSeLoadDriver <- NewEdge "SeLoadDriver" |> Tag "Pivot";
  do EdgeSeManageVolume <- NewEdge "SeManageVolume" |> Tag "Pivot";
  do EdgeSeTakeOwnership <- NewEdge "SeTakeOwnership" |> Tag "Pivot";
  do EdgeSeTrustedCredManAccess <-
    NewEdge "SeTrustedCredManAccess" |> Tag "Pivot";
  do EdgeSeTcb <- NewEdge "SeTcb" |> Tag "Pivot";

  do EdgeSeNetworkLogonRight <-
    NewEdge "SeNetworkLogonRight"
      |> RegisterProbabilityCalculator (λ source target, Return 10);

  do EdgeSIDCollision <-
    NewEdge "SIDCollision" |> Tag "Informative"
      |> RegisterProbabilityCalculator (λ source target, Return 0);

  do DNSHostname <- NewAttribute "dnsHostName";
  do EdgeControlsUpdates <- NewEdge "ControlsUpdates" |> Tag "Affects";
  do WUServer <- NewAttribute "wuServer";
  do SCCMServer <- NewAttribute "sccmServer";

  do EdgePublishes <- NewEdge "Publishes" |> Tag "Informative";

  ret (mkVars
    LocalMachineSID LocalMachineSIDOriginal AbsolutePath ShareType
    ServiceStart ServiceType
    EdgeLocalAdminRights EdgeLocalRDPRights EdgeLocalDCOMRights
    EdgeLocalSMSAdmins EdgeLocalSessionLastDay EdgeLocalSessionLastWeek
    EdgeLocalSessionLastMonth EdgeHasServiceAccountCredentials
    EdgeHasAutoAdminLogonCredentials EdgeRunsExecutable EdgeHosts
    EdgeExecuted EdgeMemberOfGroup EdgeFileWrite EdgeFileRead EdgeShares
    EdgeRegistryOwns EdgeRegistryWrite EdgeRegistryModifyDACL
    EdgeRegistryModifyOwner
    EdgeSeBackupPrivilege EdgeSeRestorePrivilege EdgeSeTakeOwnershipPrivilege
    EdgeSeAssignPrimaryToken EdgeSeCreateToken EdgeSeDebug EdgeSeImpersonate
    EdgeSeLoadDriver EdgeSeManageVolume EdgeSeTakeOwnership
    EdgeSeTrustedCredManAccess EdgeSeTcb
    EdgeSeNetworkLogonRight
    EdgeSIDCollision
    DNSHostname EdgeControlsUpdates WUServer SCCMServer
    EdgePublishes).

(** The result of a [Result] known to be [Ok]. *)
Definition fromOk {A : Type} (r : Result A)
  : match r with Ok _ => A | ConfigError _ => unit end :=
  match r with
  | Ok a => a
  | ConfigError _ => tt
  end.

(** The package variables and the registries once the [var] block has
    run in a fresh process. *)
Definition loaded : Vars * Registries :=
  Eval vm_compute in fromOk (vars emptyRegistries).

Definition V : Vars := loaded.1.
Definition infos : list EdgeInfo := edgeInfos loaded.2.

(** analyzer.go, lines 88-99. *)
Definition MapSID (original new input : SID) : SID :=
  (* If input SID is one longer than machine sid *)
  if Components input =? Components original + 1 then
    (* And it matches the original SID *)
    if bool_decide (StripRID input = original) then
      (* Return mapped SID *)
      AddComponent new (RID input)
    else
      (* No mapping *)
      input
  else
    (* No mapping *)
    input.

End analyze.


(** ** Sample data *)

Module Samples.
Import windowssecurity engine.

(** The shapes of the design document's remapping example:
    [S-1-5-21-AAA], [S-1-5-21-BBB] and [S-1-5-21-CCC], under which the
    local account [1001] is placed. *)
Definition S_1_5_21 (domain : N) : SID := [1; 5; 21; domain]%N.
Definition AAA : N := 1111%N.
Definition BBB : N := 2222%N.
Definition CCC : N := 3333%N.

(** A graph of two objects, a well-known principal and a machine, with
    an [RDPRights] edge from the one to the other. *)
Definition interactive : Object := 1%N.
Definition machine : Object := 2%N.

Definition rdp_bit : EdgeBitmap :=
  N.shiftl 1 (N.of_nat (analyze.EdgeLocalRDPRights analyze.V)).

Definition two_objects : View :=
  {| SIDof := λ o, if (o =? interactive)%N then InteractiveSID
                   else S_1_5_21 AAA;
     EdgesOf := λ o d,
       match d with
       | In => if (o =? machine)%N then [(interactive, rdp_bit)] else []
       | Out => if (o =? interactive)%N then [(machine, rdp_bit)] else []
       end |}.

(** The analyzer's table with the disabled traversal put back in as
    the calculator of [RDPRights]. *)
Definition infos_with_traversal : list EdgeInfo :=
  alter (λ info,
           {| Name := Name info; Description := Description info;
              Tags := Tags info;
              probability := Some analyze.RDPRightsTraversal |})
        (analyze.EdgeLocalRDPRights analyze.V) analyze.infos.

Definition rdp_step : PathStep :=
  {| from := interactive;
     via := analyze.EdgeLocalRDPRights analyze.V;
     to := machine |}.

Definition collision_step : PathStep :=
  {| from := machine;
     via := analyze.EdgeSIDCollision analyze.V;
     to := interactive |}.

End Samples.


(** ** Package [analyze] of [modules/analyze]: the union file system *)

Module webservice.

(** Go's [error] values as far as webservice.go tells them apart:
    [os.ErrNotExist] and every other error.  A nil error is [None]. *)
Inductive error : Type :=
| ErrNotExist
| OtherError (msg : string).

#[global] Instance error_eq_dec : EqDecision error.
Proof. solve_decision. Defined.

Section UnionFS.
Context {File : Type}.

(** [http.FileSystem]: the interface with the one method
    [Open(name string) (http.File, error)]; a nil [http.File] is [None]. *)
Definition FileSystem : Type := string → option File * option error.

(** webservice.go, lines 27-29. *)
Record UnionFS : Type := mkUnionFS {
  filesystems : list FileSystem
}.

(** webservice.go, lines 31-33; the receiver is a pointer, the updated
    struct is returned. *)
Definition AddFS (ufs : UnionFS) (newfs : FileSystem) : UnionFS :=
  {| filesystems := filesystems ufs ++ [newfs] |}.

(** webservice.go, lines 35-42. *)
Definition Open (ufs : UnionFS) (filename : string)
  : option File * option error :=
  (fix range (fss : list FileSystem) : option File * option error :=
     match fss with
     | fs :: rest =>
         match fs filename with
         | (f, None) => (f, None)
         | (_, Some _) => range rest
         end
     | [] => (None, Some ErrNotExist)
     end) (filesystems ufs).

(** webservice.go, lines 44-47. *)
Definition Exists (ufs : UnionFS) (prefix filename : string) : bool :=
  let '(_, err) := Open ufs filename in
  bool_decide (err ≠ Some ErrNotExist).

End UnionFS.

Arguments FileSystem File : clear implicits.
Arguments UnionFS File : clear implicits.

End webservice.

(** ** Package [cli] *)

Module cli.

(** An [error] of package [cli] is kept as its message; nil is [None]. *)
Definition error : Type := string.

(** *** Pre-run hooks *)

Section Hooks.
(** [Command] stands for [*cobra.Command]; [World] is whatever a hook can
    read and change. *)
Context {Command World : Type}.

(** [func(cmd *cobra.Command, args []string) error] *)
Definition Hook : Type :=
  Command → list string → World → option error * World.

(** main.go, lines 220-222, on the package variable [prerunhooks]. *)
Definition AddPreRunHook (f : Hook) (prerunhooks : list Hook) : list Hook :=
  prerunhooks ++ [f].

(** main.go, lines 203-208: the loop over [prerunhooks] that ends
    [Root.PersistentPreRunE], with the [return nil] of line 210 when no
    hook failed.  [fmt.Errorf("Prerun hook failed: %v", err)] puts the
    message of [err] behind the prefix. *)
Definition runPreRunHooks (prerunhooks : list Hook)
    (cmd : Command) (args : list string) (w : World)
  : option error * World :=
  (fix range (hooks : list Hook) (w : World) : option error * World :=
     match hooks with
     | prerunhook :: rest =>
         match prerunhook cmd args w with
         | (Some err, w') => (Some ("Prerun hook failed: " +:+ err), w')
         | (None, w') => range rest w'
         end
     | [] => (None, w)
     end) prerunhooks w.

End Hooks.

(** *** Binding configuration values to flags *)

Section BindFlags.
(** [Value] stands for the values behind [pflag.Value].  The methods of
    pflag that [bindFlags] calls are parameters: [isSliceValue] is the
    type assertion [f.Value.(pflag.SliceValue)], [Replace] and [SetValue]
    are [sv.Replace] and [f.Value.Set] with the error they return dropped,
    as the source drops it. *)
Context {Value : Type}.
Variable isSliceValue : Value → bool.
Variable Replace : list string → Value → Value.
Variable SetValue : string → Value → Value.

(** The fields of [pflag.Flag] that [bindFlags] reads or writes. *)
Record Flag : Type := mkFlag {
  Name : string;
  Changed : bool;
  FlagValue : Value
}.

(** The three viper lookups that [bindFlags] makes. *)
Record Viper : Type := mkViper {
  IsSet : string → bool;
  GetString : string → string;
  GetStringSlice : string → list string
}.

(** Flags are handled through pointers ([*pflag.Flag], here numbers); one
    flag may sit in several flag sets.  The heap, a [gmap nat Flag], holds
    the flag behind each pointer. *)
Definition FlagPtr : Type := nat.

(** A [*cobra.Command] as [bindFlags] sees it: the flags of
    [cmd.PersistentFlags()] and of [cmd.Flags()] in the order [VisitAll]
    walks them, and the subcommands of [cmd.Commands()]. *)
#[warning="-register-all"]
Inductive Command : Type :=
| mkCommand (persistentFlags flags : list FlagPtr) (commands : list Command).

(** main.go, lines 63-70: the function both [VisitAll] calls are given. *)
Definition applyConfig (viper : Viper) (f : Flag) : Flag :=
  (* Apply the viper config value to the flag when the flag is not set
     and viper has a value *)
  if negb (Changed f) && IsSet viper (Name f) then
    if isSliceValue (FlagValue f) then
      {| Name := Name f; Changed := Changed f;
         FlagValue := Replace (GetStringSlice viper (Name f)) (FlagValue f) |}
    else
      {| Name := Name f; Changed := Changed f;
         FlagValue := SetValue (GetString viper (Name f)) (FlagValue f) |}
  else f.

(** [FlagSet.VisitAll(fn)] for a [fn] that writes to the flag it is
    given. *)
Definition VisitAll (fn : Flag → Flag) (set : list FlagPtr)
    (h : gmap nat Flag) : gmap nat Flag :=
  foldl (λ h p, alter fn p h) h set.

(** main.go, lines 61-85. *)
Fixpoint bindFlags (viper : Viper) (cmd : Command) (h : gmap nat Flag)
  : gmap nat Flag :=
  match cmd with
  | mkCommand persistentFlags flags commands =>
      let h := VisitAll (applyConfig viper) persistentFlags h in
      let h := VisitAll (applyConfig viper) flags h in
      (fix range (subCommands : list Command) (h : gmap nat Flag)
         : gmap nat Flag :=
         match subCommands with
         | subCommand :: rest => range rest (bindFlags viper subCommand h)
         | [] => h
         end) commands h
  end.

(** How often a pointer occurs in a list of flag pointers. *)
Definition occurrences (p : FlagPtr) (set : list FlagPtr) : nat :=
  length (filter (λ q, q = p) set).

(** The flags [bindFlags] visits, in the order it visits them. *)
Fixpoint visited (cmd : Command) : list FlagPtr :=
  match cmd with
  | mkCommand persistentFlags flags commands =>
      persistentFlags ++ flags ++
      (fix range (subCommands : list Command) : list FlagPtr :=
         match subCommands with
         | subCommand :: rest => visited subCommand ++ range rest
         | [] => []
         end) commands
  end.

End BindFlags.

End cli.


(** ** Sample data for package [cli] *)

Module CliSamples.
Import cli.

(** Hooks over a world that counts the hooks that ran. *)
Definition countingHook : @Hook unit nat :=
  λ _ _ w, (None, S w).
Definition failingHook : @Hook unit nat :=
  λ _ _ w, (Some "no data"%string, S w).

(** Flag values of two kinds, a string and a list of strings. *)
Inductive SampleValue : Type :=
| StringValue (s : string)
| StringSliceValue (l : list string).

Definition sampleIsSlice (v : SampleValue) : bool :=
  match v with StringSliceValue _ => true | StringValue _ => false end.
Definition sampleReplace (l : list string) (v : SampleValue) : SampleValue :=
  StringSliceValue l.
Definition sampleSet (s : string) (v : SampleValue) : SampleValue :=
  match v with
  | StringValue _ => StringValue s
  | StringSliceValue l => StringSliceValue (l ++ [s])
  end.

(** [--datapath] was given on the command line, [--loglevel] was not;
    the configuration file has a value for both. *)
Definition datapathFlag : Flag :=
  {| Name := "datapath"; Changed := true;
     FlagValue := StringValue "fromcli" |}.
Definition loglevelFlag : Flag :=
  {| Name := "loglevel"; Changed := false;
     FlagValue := StringValue "info" |}.

Definition sampleHeap : gmap nat Flag :=
  {[ 0%nat := datapathFlag; 1%nat := loglevelFlag ]}.

Definition sampleViper : Viper :=
  {| IsSet := λ name, bool_decide (name ∈ ["datapath"; "loglevel"]%string);
     GetString := λ name, "fromconfig"%string;
     GetStringSlice := λ name, ["fromconfig"%string] |}.

(** The root command with both flags and the [version] subcommand. *)
Definition sampleRoot : Command :=
  mkCommand [] [0%nat; 1%nat] [mkCommand [] [] []].

End CliSamples.


(** ** The package variables of the analyzer, listed *)

Module analyzeVars.
Import engine analyze.

(** The edge variables of analyzer.go with the names they are registered
    under, in source order. *)
Definition edgeVars (v : Vars) : list (string * Edge) :=
  [ ("AdminRights", EdgeLocalAdminRights v);
    ("RDPRights", EdgeLocalRDPRights v);
    ("DCOMRights", EdgeLocalDCOMRights v);
    ("SMSAdmins", EdgeLocalSMSAdmins v);
    ("SessionLastDay", EdgeLocalSessionLastDay v);
    ("SessionLastWeek", EdgeLocalSessionLastWeek v);
    ("SessionLastMonth", EdgeLocalSessionLastMonth v);
    ("SvcAccntCreds", EdgeHasServiceAccountCredentials v);
    ("AutoAdminLogonCreds", EdgeHasAutoAdminLogonCredentials v);
    ("RunsExecutable", EdgeRunsExecutable v);
    ("Hosts", EdgeHosts v);
    ("Executed", EdgeExecuted v);
    ("MemberOfGroup", EdgeMemberOfGroup v);
    ("FileWrite", EdgeFileWrite v);
    ("FileRead", EdgeFileRead v);
    ("Shares", EdgeShares v);
    ("RegistryOwns", EdgeRegistryOwns v);
    ("RegistryWrite", EdgeRegistryWrite v);
    ("RegistryModifyDACL", EdgeRegistryModifyDACL v);
    ("RegistryModifyOwner", EdgeRegistryModifyOwner v);
    ("SeBackupPrivilege", EdgeSeBackupPrivilege v);
    ("SeRestorePrivilege", EdgeSeRestorePrivilege v);
    ("SeTakeOwnershipPrivilege", EdgeSeTakeOwnershipPrivilege v);
    ("SeAssignPrimaryToken", EdgeSeAssignPrimaryToken v);
    ("SeCreateToken", EdgeSeCreateToken v);
    ("SeDebug", EdgeSeDebug v);
    ("SeImpersonate", EdgeSeImpersonate v);
    ("SeLoadDriver", EdgeSeLoadDriver v);
    ("SeManageVolume", EdgeSeManageVolume v);
    ("SeTakeOwnership", EdgeSeTakeOwnership v);
    ("SeTrustedCredManAccess", EdgeSeTrustedCredManAccess v);
    ("SeTcb", EdgeSeTcb v);
    ("SeNetworkLogonRight", EdgeSeNetworkLogonRight v);
    ("SIDCollision", EdgeSIDCollision v);
    ("ControlsUpdates", EdgeControlsUpdates v);
    ("Publishes", EdgePublishes v) ]%string.

(** The attribute variables of analyzer.go with their names. *)
Definition attributeVars (v : Vars) : list (string * Attribute) :=
  [ ("localMachineSID", LocalMachineSID v);
    ("localMachineSIDOriginal", LocalMachineSIDOriginal v);
    ("absolutePath", AbsolutePath v);
    ("shareType", ShareType v);
    ("serviceStart", ServiceStart v);
    ("serviceType", ServiceType v);
    ("dnsHostName", DNSHostname v);
    ("wuServer", WUServer v);
    ("sccmServer", SCCMServer v) ]%string.

End analyzeVars.


(** * Properties *)

(** ** SID primitives *)

Module SIDFacts.
Import windowssecurity.

Lemma Components_AddComponent (sid : SID) (c : N) :
  Components (AddComponent sid c) = Components sid + 1.
Proof. unfold Components, AddComponent. rewrite length_app. simpl. lia. Qed.

Lemma StripRID_AddComponent (sid : SID) (c : N) :
  StripRID (AddComponent sid c) = sid.
Proof. apply removelast_last. Qed.

Lemma RID_AddComponent (sid : SID) (c : N) :
  RID (AddComponent sid c) = c.
Proof. unfold RID, AddComponent. by rewrite last_snoc. Qed.

(** A SID with at least one component is its prefix with its relative
    identifier appended again. *)
Lemma AddComponent_StripRID (sid : SID) :
  0 < Components sid → AddComponent (StripRID sid) (RID sid) = sid.
Proof.
  destruct sid as [|c sid] using rev_ind; [unfold Components; simpl; lia | intros _].
  change (sid ++ [c]) with (AddComponent sid c).
  by rewrite StripRID_AddComponent, RID_AddComponent.
Qed.

Lemma Components_nonneg (sid : SID) : 0 ≤ Components sid.
Proof. unfold Components. lia. Qed.

End SIDFacts.

(** ** [MapSID] *)

Module MapSIDFacts.
Import windowssecurity analyze SIDFacts Samples.

Example MapSID_example_match :
  MapSID (S_1_5_21 AAA) (S_1_5_21 BBB) (AddComponent (S_1_5_21 AAA) 1001)
  = AddComponent (S_1_5_21 BBB) 1001.
Proof. reflexivity. Qed.

Example MapSID_example_other_prefix :
  MapSID (S_1_5_21 AAA) (S_1_5_21 BBB) (AddComponent (S_1_5_21 CCC) 1001)
  = AddComponent (S_1_5_21 CCC) 1001.
Proof. reflexivity. Qed.

Example MapSID_example_too_long :
  MapSID (S_1_5_21 AAA) (S_1_5_21 BBB)
         (AddComponent (AddComponent (S_1_5_21 AAA) 1001) 7)
  = AddComponent (AddComponent (S_1_5_21 AAA) 1001) 7.
Proof. reflexivity. Qed.

Example MapSID_example_blank :
  MapSID (S_1_5_21 AAA) (S_1_5_21 BBB) [] = [].
Proof. reflexivity. Qed.

Lemma MapSID_match (original new input : SID) :
  Components input = Components original + 1 →
  StripRID input = original →
  MapSID original new input = AddComponent new (RID input).
Proof.
  intros Hlen Hstrip. unfold MapSID.
  rewrite (proj2 (Z.eqb_eq _ _) Hlen).
  by rewrite bool_decide_eq_true_2.
Qed.

Lemma MapSID_no_match (original new input : SID) :
  ¬ (Components input = Components original + 1 ∧ StripRID input = original) →
  MapSID original new input = input.
Proof.
  intros Hno. unfold MapSID.
  destruct (Z.eqb_spec (Components input) (Components original + 1)); [|done].
  case_bool_decide; [|done]. by destruct Hno.
Qed.

(** In the list model, the remap fires exactly on the SIDs [original ++ [rid]]. *)
Lemma MapSID_child (original new : SID) (rid : N) :
  MapSID original new (AddComponent original rid) = AddComponent new rid.
Proof.
  rewrite MapSID_match.
  - by rewrite RID_AddComponent.
  - apply Components_AddComponent.
  - apply StripRID_AddComponent.
Qed.

Lemma remap_condition_child (original input : SID) :
  Components input = Components original + 1 ∧ StripRID input = original
  ↔ ∃ rid, input = AddComponent original rid.
Proof.
  split.
  - intros [Hlen Hstrip]. exists (RID input).
    rewrite <- Hstrip. symmetry. apply AddComponent_StripRID.
    pose proof (Components_nonneg original). lia.
  - intros [rid ->]. split.
    + apply Components_AddComponent.
    + apply StripRID_AddComponent.
Qed.

(** The guard of [MapSID] keeps [StripRID] and [RID] away from SIDs that
    have no component to strip or to extract. *)
Lemma MapSID_guard_nonblank (original input : SID) :
  Components input = Components original + 1 → input ≠ [].
Proof.
  intros Hlen ->. unfold Components in Hlen. simpl in Hlen. lia.
Qed.

(** When [input] already lies directly below [new] and [new] is not
    [original], there is no remap, and the unchanged [input] is at the
    same time [new] with the last component of [input] appended: the two
    outcomes of [MapSID] coincide there. *)
Lemma MapSID_outcomes_coincide (original new : SID) (rid : N) :
  new ≠ original →
  MapSID original new (AddComponent new rid) = AddComponent new rid
  ∧ AddComponent new (RID (AddComponent new rid)) = AddComponent new rid.
Proof.
  intros Hne. split.
  - apply MapSID_no_match. intros [_ Hstrip].
    by rewrite StripRID_AddComponent in Hstrip.
  - by rewrite RID_AddComponent.
Qed.

(** C1: [MapSID original new input] is [new] with the last component of
    [input] appended when [input] has exactly one more component than
    [original] and [input] without its last component equals [original];
    in every other case it is [input] itself. *)
Theorem MapSID_remap_spec (original new input : SID) :
  MapSID original new input =
    if decide (Components input = Components original + 1
               ∧ StripRID input = original)
    then AddComponent new (RID input)
    else input.
Proof.
  case_decide as Hcond.
  - destruct Hcond. by apply MapSID_match.
  - by apply MapSID_no_match.
Qed.

(** C8: remapping never fails.  [MapSID] is a total function from SIDs
    to SIDs with no error result, and an input that does not match the
    original prefix (a malformed one included) comes back unchanged. *)
Theorem MapSID_never_fails (original new input : SID) :
  ¬ (Components input = Components original + 1 ∧ StripRID input = original) →
  MapSID original new input = input.
Proof.
  intros Hno. unfold MapSID.
  destruct (Components input =? Components original + 1) eqn:Hlen; [|done].
  apply Z.eqb_eq in Hlen.
  destruct (bool_decide (StripRID input = original)) eqn:Hstrip; [|done].
  apply bool_decide_eq_true in Hstrip. by destruct Hno.
Qed.

Lemma MapSID_never_fails_witness :
  MapSID (S_1_5_21 AAA) (S_1_5_21 BBB) [1; 5]%N = [1; 5]%N.
Proof.
  apply (MapSID_never_fails (S_1_5_21 AAA) (S_1_5_21 BBB) [1; 5]%N).
  intros [Hlen _]. vm_compute in Hlen. discriminate Hlen.
Defined.

(** C10: [MapSID] is idempotent: remapping an already remapped SID with
    the same pair of prefixes changes nothing. *)
Theorem MapSID_idempotent (original new input : SID) :
  MapSID original new (MapSID original new input)
  = MapSID original new input.
Proof.
  destruct (decide (Components input = Components original + 1
                    ∧ StripRID input = original)) as [Hcond|Hno].
  - apply remap_condition_child in Hcond as [rid ->].
    rewrite MapSID_child.
    destruct (decide (new = original)) as [->|Hne].
    + apply MapSID_child.
    + apply MapSID_no_match. intros [_ Hstrip].
      by rewrite StripRID_AddComponent in Hstrip.
  - by rewrite !(MapSID_no_match _ _ input Hno).
Qed.

End MapSIDFacts.

(** ** Symbol registries *)

Module RegistryFacts.
Import engine.

Lemma Register_empty_name (reg : SymbolRegistry) :
  ∃ msg, Register reg EmptyString = (ConfigError msg, reg).
Proof. unfold Register. rewrite decide_True by done. eauto. Qed.

Lemma Register_known (reg : SymbolRegistry) (name : string) (h : nat) :
  name ≠ EmptyString →
  handles reg !! name = Some h →
  Register reg name = (Ok h, reg).
Proof.
  intros Hname Hh. unfold Register.
  rewrite decide_False by done. by rewrite Hh.
Qed.

(** Whatever is registered next, a name keeps the handle it has. *)
Lemma Register_keeps (reg : SymbolRegistry) (other name : string) (h : nat) :
  handles reg !! name = Some h →
  handles (Register reg other).2 !! name = Some h.
Proof.
  intros Hh. unfold Register.
  destruct (decide (other = EmptyString)); [done|].
  destruct (handles reg !! other) eqn:Hother; [done|]. simpl.
  rewrite lookup_insert_ne; [done|]. intros ->. congruence.
Qed.

Lemma RegisterAll_keeps (names : list string) (reg : SymbolRegistry)
    (name : string) (h : nat) :
  handles reg !! name = Some h →
  handles (RegisterAll reg names) !! name = Some h.
Proof.
  revert reg. induction names as [|other names IH]; intros reg Hh; [done|].
  apply IH. by apply Register_keeps.
Qed.

(** A successful registration leaves the name bound to the handle it
    returned. *)
Lemma Register_binds (reg : SymbolRegistry) (name : string) (h : nat) :
  (Register reg name).1 = Ok h →
  handles (Register reg name).2 !! name = Some h.
Proof.
  unfold Register.
  destruct (decide (name = EmptyString)); [done|].
  destruct (handles reg !! name) eqn:Hname; simpl.
  - by intros [= ->].
  - intros [= <-]. apply lookup_insert_eq.
Qed.

Lemma Register_Ok_nonempty (reg : SymbolRegistry) (name : string) (h : nat) :
  (Register reg name).1 = Ok h → name ≠ EmptyString.
Proof.
  unfold Register. by destruct (decide (name = EmptyString)).
Qed.

Lemma emptyRegistry_ok : registry_ok emptyRegistry.
Proof. split; intros *; simpl; by rewrite lookup_empty. Qed.

Lemma Register_ok (reg : SymbolRegistry) (name : string) :
  registry_ok reg → registry_ok (Register reg name).2.
Proof.
  intros [Hlt Hinj]. unfold Register.
  destruct (decide (name = EmptyString)) as [|Hnonempty]; [done|].
  destruct (handles reg !! name) eqn:Hname; [done|]. simpl.
  split; simpl.
  - intros nm h. rewrite lookup_insert. case_decide.
    + intros [= <-]. lia.
    + intros Hn%Hlt. lia.
  - intros n1 n2 h. rewrite !lookup_insert.
    repeat case_decide; subst; try done.
    + intros [= <-] Hn%Hlt. lia.
    + intros Hn%Hlt [= <-]. lia.
    + apply Hinj.
Qed.

Lemma Register_distinct (reg : SymbolRegistry) (n1 n2 : string) (h1 h2 : nat) :
  registry_ok reg →
  (Register reg n1).1 = Ok h1 →
  (Register (Register reg n1).2 n2).1 = Ok h2 →
  n1 ≠ n2 → h1 ≠ h2.
Proof.
  intros Hok H1 H2 Hne ->.
  pose proof (Register_ok _ n2 (Register_ok _ n1 Hok)) as [_ Hinj].
  apply Hne, (Hinj _ _ h2).
  - by apply Register_keeps, Register_binds.
  - by apply Register_binds.
Qed.

(** C7: registration is idempotent.  After a name has been registered
    once, every later registration of it (whatever was registered in
    between, the name itself included, any number of times) returns what
    the first registration returned: the same handle. *)
Theorem Register_idempotent (reg : SymbolRegistry) (name : string)
    (between : list string) :
  (Register (RegisterAll (Register reg name).2 between) name).1
  = (Register reg name).1.
Proof.
  destruct (Register reg name).1 as [h|msg] eqn:Hfirst.
  - rewrite (Register_known _ name h); [done| |].
    + by eapply Register_Ok_nonempty.
    + by apply RegisterAll_keeps, Register_binds.
  - unfold Register in *.
    destruct (decide (name = EmptyString)); [done|].
    by destruct (handles reg !! name).
Qed.

End RegistryFacts.

(** ** Probability calculators *)

Module CalculatorFacts.
Import windowssecurity engine analyze Samples.

(** The [var] block runs without a configuration error and leaves the
    variables and tables of [loaded]. *)
Lemma vars_loaded : vars emptyRegistries = Ok loaded.
Proof. vm_compute. reflexivity. Qed.

(** The calculators the analyzer registers, in the order of their edge
    handles: RDPRights, DCOMRights, SMSAdmins, SessionLastDay,
    SessionLastWeek, SessionLastMonth, SeImpersonate, SeNetworkLogonRight
    and SIDCollision. *)
Lemma calculators_infos :
  calculators infos =
    [ RDPRightsProbability;
      (λ _ _, Return 50); (λ _ _, Return 50);
      (λ _ _, Return 80); (λ _ _, Return 55); (λ _ _, Return 30);
      (λ _ _, Return 20); (λ _ _, Return 10); (λ _ _, Return 0) ].
Proof. reflexivity. Qed.

Lemma RDPRights_registered :
  infos !! EdgeLocalRDPRights V ≫= probability = Some RDPRightsProbability.
Proof. reflexivity. Qed.

Lemma RDPRights_body (source target : Object) :
  RDPRightsProbability source target = Return 30.
Proof. reflexivity. Qed.

Lemma EdgeProbability_unfold (fuel : nat) (infos : list EdgeInfo) (v : View)
    (e : Edge) (source target : Object) :
  EdgeProbability (S fuel) infos v e source target =
    match infos !! e ≫= probability with
    | Some f =>
        run (fun eb s t =>
               maxOver (fun e' => EdgeProbability fuel infos v e' s t)
                       (length infos) eb)
            v (f source target)
    | None => Some MAXPROBABILITY
    end.
Proof. reflexivity. Qed.

(** A body that never calls [MaxProbability] returns a value, and the
    same one whatever [MaxProbability] would have answered. *)
Lemma run_NoDispatch {A : Type} (c : Calc A) (v : View) :
  NoDispatch c → ∃ a, ∀ maxProbability, run maxProbability v c = Some a.
Proof.
  induction 1 as [a|o d k _ IH|o k _ IH]; simpl.
  - by exists a.
  - apply IH.
  - apply IH.
Qed.

Lemma calculators_lookup (infos : list EdgeInfo) (e : Edge)
    (f : ProbabilityCalculatorFunction) :
  infos !! e ≫= probability = Some f → f ∈ calculators infos.
Proof.
  destruct (infos !! e) as [info|] eqn:He; [simpl|done]. intros Hf.
  apply list_elem_of_omap. exists info. split; [|done].
  by eapply list_elem_of_lookup_2.
Qed.

(** On a table without dispatching calculators the dispatch point
    returns at nesting depth one, and more fuel changes nothing. *)
Lemma EdgeProbability_DispatchFree (infos : list EdgeInfo) (v : View)
    (e : Edge) (source target : Object) :
  DispatchFree infos →
  ∃ p, ∀ fuel, EdgeProbability (S fuel) infos v e source target = Some p.
Proof.
  intros Hfree.
  destruct (infos !! e ≫= probability) as [f|] eqn:Hf.
  - apply calculators_lookup in Hf as Hin.
    unfold DispatchFree in Hfree. rewrite Forall_forall in Hfree.
    destruct (run_NoDispatch (f source target) v (Hfree f Hin source target))
      as [p Hp].
    exists p. intros fuel. rewrite EdgeProbability_unfold, Hf. apply Hp.
  - exists MAXPROBABILITY. intros fuel.
    by rewrite EdgeProbability_unfold, Hf.
Qed.

Lemma infos_DispatchFree : DispatchFree infos.
Proof.
  unfold DispatchFree. rewrite calculators_infos.
  repeat (apply Forall_cons; split; [intros source target; constructor|]).
  apply Forall_nil_2.
Qed.

(** **** The disabled traversal *)

Lemma maxOver_step_None (edgeProbability : Edge → option Probability)
    (eb : EdgeBitmap) (kinds : list Edge) :
  foldl (fun acc e =>
           if IsSet eb e then
             match acc, edgeProbability e with
             | Some m, Some p => Some (Z.max m p)
             | _, _ => None
             end
           else acc) None kinds = None.
Proof. induction kinds as [|e kinds IH]; simpl; [done|]. by destruct (IsSet eb e). Qed.

(** If the probability of one of the edge kinds in the bitmap does not
    come back, neither does [MaxProbability]. *)
Lemma maxOver_None (edgeProbability : Edge → option Probability)
    (kinds : nat) (eb : EdgeBitmap) (e : Edge) :
  (e < kinds)%nat → IsSet eb e = true → edgeProbability e = None →
  maxOver edgeProbability kinds eb = None.
Proof.
  intros Hlt Hset Hnone. unfold maxOver.
  replace kinds with (e + S (kinds - S e))%nat by lia.
  rewrite seq_app, foldl_app. simpl. rewrite Hset, Hnone.
  match goal with |- context [match ?acc with Some _ => None | None => None end] =>
    destruct acc end; apply maxOver_step_None.
Qed.

(** On the two-object graph the traversal finds the well-known principal
    among the inbound neighbours of the machine and asks the dispatch for
    the probability of the edges from it. *)
Lemma traversal_run
    (maxProbability : EdgeBitmap → Object → Object → option Probability) :
  run maxProbability two_objects (RDPRightsTraversal interactive machine)
  = match maxProbability rdp_bit interactive machine with
    | Some p => Some (if p <? 30 then 30 else p)
    | None => None
    end.
Proof. reflexivity. Qed.

(** With the traversal enabled, the probability of the [RDPRights] edge
    from a well-known principal to a machine asks for the probability of
    that same edge: no nesting depth is enough. *)
Lemma traversal_never_returns (fuel : nat) :
  EdgeProbability fuel infos_with_traversal two_objects
                  (EdgeLocalRDPRights V) interactive machine = None.
Proof.
  induction fuel as [|fuel IH]; [done|].
  rewrite EdgeProbability_unfold.
  change (infos_with_traversal !! EdgeLocalRDPRights V ≫= probability)
    with (Some RDPRightsTraversal).
  cbv beta iota. rewrite traversal_run.
  rewrite (maxOver_None _ _ _ (EdgeLocalRDPRights V)); [done| | |done].
  - vm_compute. lia.
  - reflexivity.
Qed.

Lemma traversal_dispatches :
  ¬ NoDispatch (RDPRightsTraversal interactive machine).
Proof.
  intros Hnd. inversion Hnd as [| o d k Hk |]; subst.
  specialize (Hk [(interactive, rdp_bit)]).
  inversion Hk as [| | o k' Hk']; subst.
  specialize (Hk' InteractiveSID). inversion Hk'.
Qed.

(** C2: no calculator of the analyzer calls back into the dispatch of
    probability calculators: every registered calculator body is free of
    [MaxProbability] calls (it may only read adjacency and SIDs), and
    evaluating any edge kind on any pair of objects returns with nesting
    depth one, whatever the graph. *)
Theorem calculators_never_dispatch :
  Forall (λ f, ∀ source target, NoDispatch (f source target))
         (calculators infos)
  ∧ ∀ (v : View) (e : Edge) (source target : Object),
      ∃ p, ∀ fuel, EdgeProbability (S fuel) infos v e source target = Some p.
Proof.
  split.
  - apply infos_DispatchFree.
  - intros. apply EdgeProbability_DispatchFree, infos_DispatchFree.
Qed.

(** C3: the calculator of [RDPRights] falls back to the floor of 30.  The
    descriptor of [RDPRights] has a calculator registered; that
    calculator, run on any pair of objects, on any graph and whatever
    [MaxProbability] would answer, returns a probability of at least 30;
    and so does the dispatch of [RDPRights], which goes through it. *)
Theorem RDPRights_floor :
  ∃ f : ProbabilityCalculatorFunction,
    infos !! EdgeLocalRDPRights V ≫= probability = Some f
    ∧ (∀ maxProbability (v : View) (source target : Object),
         ∃ p, run maxProbability v (f source target) = Some p ∧ 30 ≤ p)
    ∧ (∀ (fuel : nat) (v : View) (source target : Object),
         ∃ p, EdgeProbability (S fuel) infos v (EdgeLocalRDPRights V)
                              source target
              = run (λ _ _ _, None) v (f source target)
              ∧ run (λ _ _ _, None) v (f source target) = Some p
              ∧ 30 ≤ p).
Proof.
  exists RDPRightsProbability. split; [|split].
  - apply RDPRights_registered.
  - intros maxProbability v source target. exists 30.
    rewrite RDPRights_body. split; [reflexivity|lia].
  - intros fuel v source target. exists 30.
    rewrite EdgeProbability_unfold, RDPRights_registered, RDPRights_body.
    split; [reflexivity|]. split; [reflexivity|lia].
Qed.

(** C4: every calculator the analyzer registers returns a probability
    between 0 and 100, for every pair of objects, on every graph. *)
Theorem calculators_in_range :
  Forall (λ f, ∀ maxProbability (v : View) (source target : Object),
            ∃ p, run maxProbability v (f source target) = Some p
                 ∧ 0 ≤ p ≤ 100)
         (calculators infos).
Proof.
  rewrite calculators_infos.
  repeat (apply Forall_cons; split;
          [intros d v source target; unfold RDPRightsProbability; simpl;
           eexists; split; [reflexivity|lia]|]).
  apply Forall_nil_2.
Qed.

(** C9: the calculator of [RDPRights] is a constant function: any two
    evaluations agree, whatever the objects and the graph, and the common
    value is 30. *)
Theorem RDPRights_constant (fuel fuel' : nat) (v v' : View)
    (source target source' target' : Object) :
  EdgeProbability (S fuel) infos v (EdgeLocalRDPRights V) source target
  = EdgeProbability (S fuel') infos v' (EdgeLocalRDPRights V) source' target'
  ∧ EdgeProbability (S fuel) infos v (EdgeLocalRDPRights V) source target
    = Some 30.
Proof.
  by rewrite !EdgeProbability_unfold, RDPRights_registered.
Qed.

End CalculatorFacts.

(** ** Path score *)

Module PathFacts.
Import windowssecurity engine analyze Samples CalculatorFacts.

Lemma foldl_min_le_init (ps : list Probability) (p : Probability) :
  foldl Z.min p ps ≤ p.
Proof.
  revert p. induction ps as [|q ps IH]; intros p; simpl; [lia|].
  specialize (IH (Z.min p q)). lia.
Qed.

Lemma foldl_min_le_elem (ps : list Probability) (p q : Probability) :
  q ∈ ps → foldl Z.min p ps ≤ q.
Proof.
  revert p. induction ps as [|r ps IH]; intros p Hq; simpl.
  - by apply elem_of_nil in Hq.
  - apply elem_of_cons in Hq as [->|Hq].
    + pose proof (foldl_min_le_init ps (Z.min p r)). lia.
    + by apply IH.
Qed.

Lemma foldl_min_attained (ps : list Probability) (p : Probability) :
  foldl Z.min p ps ∈ p :: ps.
Proof.
  revert p. induction ps as [|q ps IH]; intros p; simpl.
  - apply elem_of_cons. by left.
  - specialize (IH (Z.min p q)).
    apply elem_of_cons in IH as [Heq|Hin].
    + rewrite Heq. destruct (Z.min_spec p q) as [[_ ->]|[_ ->]].
      * apply elem_of_cons. by left.
      * apply elem_of_cons. right. apply elem_of_cons. by left.
    + apply elem_of_cons. right. apply elem_of_cons. by right.
Qed.

Lemma minimum_le (ps : list Probability) (p : Probability) :
  p ∈ ps → minimum ps ≤ p.
Proof.
  destruct ps as [|q ps]; [by intros ?%elem_of_nil|]. simpl.
  intros [->|Hp]%elem_of_cons.
  - apply foldl_min_le_init.
  - by apply foldl_min_le_elem.
Qed.

Lemma minimum_attained (ps : list Probability) :
  ps ≠ [] → minimum ps ∈ ps.
Proof. destruct ps as [|q ps]; [done|]. intros _. apply foldl_min_attained. Qed.

Lemma StepProbability_DispatchFree (infos : list EdgeInfo) (v : View)
    (st : PathStep) :
  DispatchFree infos →
  ∃ p, ∀ fuel, StepProbability (S fuel) infos v st = Some p.
Proof. apply EdgeProbability_DispatchFree. Qed.

(** On a table without dispatching calculators every path gets a score. *)
Lemma PathScore_DispatchFree (infos : list EdgeInfo) (fuel : nat) (v : View)
    (path : list PathStep) :
  DispatchFree infos → is_Some (PathScore (S fuel) infos v path).
Proof.
  intros Hfree. unfold PathScore. apply fmap_is_Some, mapM_is_Some.
  apply Forall_forall. intros st _. simpl.
  destruct (StepProbability_DispatchFree infos v st Hfree) as [p Hp].
  by rewrite Hp.
Qed.

(** An informative step does not count, wherever it sits on the path. *)
Lemma PathScore_skip_informative (infos : list EdgeInfo) (fuel : nat)
    (v : View) (pre post : list PathStep) (st : PathStep) :
  Informative infos (via st) = true →
  PathScore fuel infos v (pre ++ st :: post)
  = PathScore fuel infos v (pre ++ post).
Proof.
  intros Hinf. unfold PathScore, Scored.
  rewrite !filter_app, filter_cons_False; [done|]. by rewrite Hinf.
Qed.

(** The score is a lower bound of the probabilities of the steps that
    count, and it is the probability of one of them. *)
Lemma PathScore_bound (infos : list EdgeInfo) (fuel : nat) (v : View)
    (path : list PathStep) (score : Probability) (st : PathStep) :
  PathScore fuel infos v path = Some score →
  st ∈ path → Informative infos (via st) = false →
  ∃ p, StepProbability fuel infos v st = Some p ∧ score ≤ p.
Proof.
  unfold PathScore. intros Hscore Hin Hinf.
  apply fmap_Some in Hscore as (ps & Hps & ->).
  apply mapM_Some in Hps.
  assert (st ∈ Scored infos path) as Hst by by apply list_elem_of_filter.
  apply list_elem_of_lookup in Hst as [i Hi].
  destruct (Forall2_lookup_l _ _ _ _ _ Hps Hi) as (p & Hp & Heval).
  exists p. split; [done|].
  apply minimum_le. by eapply list_elem_of_lookup_2.
Qed.

Lemma PathScore_attained (infos : list EdgeInfo) (fuel : nat) (v : View)
    (path : list PathStep) (score : Probability) :
  PathScore fuel infos v path = Some score →
  (∃ st, st ∈ path ∧ Informative infos (via st) = false) →
  ∃ st, st ∈ path ∧ Informative infos (via st) = false
        ∧ StepProbability fuel infos v st = Some score.
Proof.
  unfold PathScore. intros Hscore (st0 & Hin0 & Hinf0).
  apply fmap_Some in Hscore as (ps & Hps & ->).
  apply mapM_Some in Hps.
  assert (st0 ∈ Scored infos path) as Hst0 by by apply list_elem_of_filter.
  assert (ps ≠ []) as Hne.
  { intros ->. apply Forall2_nil_inv_r in Hps. rewrite Hps in Hst0.
    by apply elem_of_nil in Hst0. }
  apply minimum_attained, list_elem_of_lookup in Hne as [i Hi].
  destruct (Forall2_lookup_r _ _ _ _ _ Hps Hi) as (st & Hst & Heval).
  apply list_elem_of_lookup_2, list_elem_of_filter in Hst as [Hinf Hin].
  by exists st.
Qed.

Lemma PathScore_single (infos : list EdgeInfo) (fuel : nat) (v : View)
    (st : PathStep) (p : Probability) :
  Informative infos (via st) = false →
  StepProbability fuel infos v st = Some p →
  PathScore fuel infos v [st] = Some p.
Proof.
  intros Hinf Hp. unfold PathScore, Scored.
  rewrite filter_cons_True by done. simpl. by rewrite Hp.
Qed.

(** C6: the score of a path is the minimum probability over its
    non-informative edges.  On a table of calculators that do not
    dispatch (the analyzer's is one), every path has a score; the score is
    at most the probability of each non-informative edge of the path and
    equals the probability of one of them if there is any; and a path of
    a single non-informative edge of probability 30 scores exactly 30. *)
Theorem PathScore_is_minimum (infos : list EdgeInfo) (fuel : nat) (v : View)
    (path : list PathStep) :
  DispatchFree infos →
  ∃ score,
    PathScore (S fuel) infos v path = Some score
    ∧ (∀ st, st ∈ path → Informative infos (via st) = false →
         ∃ p, StepProbability (S fuel) infos v st = Some p ∧ score ≤ p)
    ∧ ((∃ st, st ∈ path ∧ Informative infos (via st) = false) →
         ∃ st, st ∈ path ∧ Informative infos (via st) = false
               ∧ StepProbability (S fuel) infos v st = Some score)
    ∧ (∀ st, path = [st] → Informative infos (via st) = false →
         StepProbability (S fuel) infos v st = Some 30 → score = 30).
Proof.
  intros Hfree.
  destruct (PathScore_DispatchFree infos fuel v path Hfree) as [score Hscore].
  exists score. split; [|split; [|split]].
  - done.
  - intros st. by apply PathScore_bound.
  - by apply PathScore_attained.
  - intros st -> Hinf Hp.
    rewrite (PathScore_single _ _ _ _ 30 Hinf Hp) in Hscore. congruence.
Qed.

Lemma PathScore_is_minimum_witness :
  ∃ score,
    PathScore 1 analyze.infos two_objects [rdp_step] = Some score
    ∧ (∀ st, st ∈ [rdp_step] → Informative analyze.infos (via st) = false →
         ∃ p, StepProbability 1 analyze.infos two_objects st = Some p
              ∧ score ≤ p)
    ∧ ((∃ st, st ∈ [rdp_step] ∧ Informative analyze.infos (via st) = false) →
         ∃ st, st ∈ [rdp_step] ∧ Informative analyze.infos (via st) = false
               ∧ StepProbability 1 analyze.infos two_objects st = Some score)
    ∧ (∀ st, [rdp_step] = [st] → Informative analyze.infos (via st) = false →
         StepProbability 1 analyze.infos two_objects st = Some 30 →
         score = 30).
Proof.
  apply (PathScore_is_minimum analyze.infos 0 two_objects [rdp_step]).
  apply infos_DispatchFree.
Defined.

(** The design document's example, on the analyzer's table: the path
    that consists of one [RDPRights] edge scores 30, also when a
    [SIDCollision] edge is shown along with it. *)
Example PathScore_rdp :
  PathScore 1 analyze.infos two_objects [rdp_step] = Some 30.
Proof. reflexivity. Qed.

Example PathScore_rdp_collision :
  PathScore 1 analyze.infos two_objects [rdp_step; collision_step] = Some 30.
Proof. reflexivity. Qed.

(** C5: the [SIDCollision] edge kind carries zero probability (its
    calculator returns 0 for every pair of objects, on every graph), it
    is tagged "Informative", and therefore it does not count in the
    score of any path it lies on. *)
Theorem SIDCollision_zero_informative :
  (∀ (fuel : nat) (v : View) (source target : Object),
     EdgeProbability (S fuel) analyze.infos v (EdgeSIDCollision V)
                     source target = Some 0)
  ∧ HasTag analyze.infos (EdgeSIDCollision V) "Informative" = true
  ∧ (∀ (fuel : nat) (v : View) (pre post : list PathStep)
       (source target : Object),
       PathScore fuel analyze.infos v
         (pre ++ mkStep source (EdgeSIDCollision V) target :: post)
       = PathScore fuel analyze.infos v (pre ++ post)).
Proof.
  split; [|split].
  - intros. by rewrite EdgeProbability_unfold.
  - reflexivity.
  - intros. by apply PathScore_skip_informative.
Qed.

End PathFacts.

(** ** The union file system *)

Module UnionFSFacts.
Import webservice.

Section UnionFS.
Context {File : Type}.
Implicit Types (ufs : UnionFS File) (fs newfs : FileSystem File).
Implicit Types (f : option File) (filename prefix : string).

Lemma Open_nil filename :
  Open (mkUnionFS []) filename = (@None File, Some ErrNotExist).
Proof. reflexivity. Qed.

Lemma Open_cons fs (fss : list (FileSystem File)) filename :
  Open (mkUnionFS (fs :: fss)) filename =
    match fs filename with
    | (f, None) => (f, None)
    | (_, Some _) => Open (mkUnionFS fss) filename
    end.
Proof. reflexivity. Qed.

(** X1: [Open] reports no error but [os.ErrNotExist]: it either succeeds
    or returns a nil file with exactly that error, whatever errors the
    file systems behind it gave. *)
Theorem Open_error_is_ErrNotExist ufs filename :
  (Open ufs filename).2 = None
  ∨ Open ufs filename = (None, Some ErrNotExist).
Proof.
  destruct ufs as [fss]. induction fss as [|fs fss IH].
  - right. apply Open_nil.
  - rewrite Open_cons. destruct (fs filename) as [f [err|]].
    + apply IH.
    + by left.
Qed.

(** X2: [Open] answers from the first file system, in the order they
    were added, that opens the name without error: it returns [(f, nil)]
    exactly when some file system returns [(f, nil)] and all file systems
    before it return an error. *)
Theorem Open_first_success ufs filename f :
  Open ufs filename = (f, None)
  ↔ ∃ i fs, filesystems ufs !! i = Some fs
            ∧ fs filename = (f, None)
            ∧ ∀ j fs', (j < i)%nat → filesystems ufs !! j = Some fs' →
                       (fs' filename).2 ≠ None.
Proof.
  destruct ufs as [fss]. simpl. induction fss as [|fs0 fss IH].
  - rewrite Open_nil. split; [done|]. by intros (i & fs & Hi & _).
  - rewrite Open_cons. destruct (fs0 filename) as [f0 [err|]] eqn:Hfs0.
    + rewrite IH. split.
      * intros (i & fs & Hi & Hfs & Hbefore). exists (S i), fs.
        split; [done|]. split; [done|].
        intros [|j] fs' Hj Hfs'; simpl in Hfs'.
        -- injection Hfs' as <-. by rewrite Hfs0.
        -- apply (Hbefore j); [lia|done].
      * intros ([|i] & fs & Hi & Hfs & Hbefore); simpl in Hi.
        -- injection Hi as <-. congruence.
        -- exists i, fs. split; [done|]. split; [done|].
           intros j fs' Hj Hfs'. apply (Hbefore (S j)); [lia|done].
    + split.
      * intros [= <-]. exists 0%nat, fs0. split; [done|]. split; [done|].
        intros j fs' Hj. lia.
      * intros ([|i] & fs & Hi & Hfs & Hbefore); simpl in Hi.
        -- injection Hi as <-. congruence.
        -- exfalso. apply (Hbefore 0%nat fs0); [lia|done|by rewrite Hfs0].
Qed.

Lemma Open_succeeds_iff ufs filename :
  (Open ufs filename).2 = None
  ↔ ∃ fs, fs ∈ filesystems ufs ∧ (fs filename).2 = None.
Proof.
  destruct ufs as [fss]. simpl. induction fss as [|fs0 fss IH].
  - rewrite Open_nil. split; [done|]. intros (fs & Hin & _).
    by apply elem_of_nil in Hin.
  - rewrite Open_cons. destruct (fs0 filename) as [f0 [err|]] eqn:Hfs0.
    + rewrite IH. split.
      * intros (fs & Hin & Hfs). exists fs. split; [|done].
        apply elem_of_cons. by right.
      * intros (fs & [->|Hin]%elem_of_cons & Hfs).
        -- by rewrite Hfs0 in Hfs.
        -- by exists fs.
    + split; [|done]. intros _. exists fs0. split.
      * apply elem_of_cons. by left.
      * by rewrite Hfs0.
Qed.

(** X3: [Exists] says whether some file system of the union opens the
    name without error; its [prefix] argument plays no part. *)
Theorem Exists_iff ufs prefix filename :
  Exists ufs prefix filename = true
  ↔ ∃ fs, fs ∈ filesystems ufs ∧ (fs filename).2 = None.
Proof.
  rewrite <- Open_succeeds_iff. unfold Exists.
  destruct (Open_error_is_ErrNotExist ufs filename) as [Hok|Herr].
  - destruct (Open ufs filename) as [f err]. simpl in Hok. subst err.
    split; [done|]. intros _. by apply bool_decide_eq_true_2.
  - rewrite Herr. split; [|done].
    intros Hne%bool_decide_eq_true_1. by destruct Hne.
Qed.

(** X4: a file system added with [AddFS] comes last: it is asked only
    for names that no file system added before it opens, so it cannot
    replace a file the union already serves. *)
Theorem Open_AddFS ufs newfs filename :
  Open (AddFS ufs newfs) filename =
    match (Open ufs filename).2 with
    | None => Open ufs filename
    | Some _ =>
        match newfs filename with
        | (f, None) => (f, None)
        | (_, Some _) => (None, Some ErrNotExist)
        end
    end.
Proof.
  destruct ufs as [fss]. unfold AddFS. simpl filesystems.
  induction fss as [|fs fss IH].
  - change ([] ++ [newfs]) with [newfs]. rewrite Open_cons, !Open_nil.
    simpl. by destruct (newfs filename) as [f [err|]].
  - change ((fs :: fss) ++ [newfs]) with (fs :: (fss ++ [newfs])).
    rewrite !Open_cons. by destruct (fs filename) as [f [err|]].
Qed.

End UnionFS.

End UnionFSFacts.

(** ** Pre-run hooks *)

Module HookFacts.
Import cli CliSamples.

Section Hooks.
Context {Command World : Type}.
Implicit Types (hooks pre post : list (@Hook Command World)).
Implicit Types (f h : @Hook Command World) (cmd : Command).
Implicit Types (args : list string) (w : World) (err : error).

Lemma runPreRunHooks_cons h hooks cmd args w :
  runPreRunHooks (h :: hooks) cmd args w =
    match h cmd args w with
    | (Some err, w') => (Some ("Prerun hook failed: " +:+ err), w')
    | (None, w') => runPreRunHooks hooks cmd args w'
    end.
Proof. reflexivity. Qed.

(** Running two lists of hooks one after the other: the second list
    runs in the world the first one left, unless the first one failed. *)
Lemma runPreRunHooks_app pre post cmd args w :
  runPreRunHooks (pre ++ post) cmd args w =
    match runPreRunHooks pre cmd args w with
    | (None, w') => runPreRunHooks post cmd args w'
    | (Some err, w') => (Some err, w')
    end.
Proof.
  revert w. induction pre as [|h pre IH]; intros w; [done|].
  change ((h :: pre) ++ post) with (h :: (pre ++ post)).
  rewrite !runPreRunHooks_cons.
  destruct (h cmd args w) as [[err|] w']; [done|]. apply IH.
Qed.

(** X5: the first hook that returns an error ends the loop: its error
    comes back behind the prefix "Prerun hook failed: ", and the hooks
    after it do not run (the world is the one the failing hook left). *)
Theorem runPreRunHooks_stops_at_failure pre h post cmd args w w1 w2 err :
  runPreRunHooks pre cmd args w = (None, w1) →
  h cmd args w1 = (Some err, w2) →
  runPreRunHooks (pre ++ h :: post) cmd args w
  = (Some ("Prerun hook failed: " +:+ err), w2).
Proof.
  intros Hpre Hh.
  by rewrite runPreRunHooks_app, Hpre, runPreRunHooks_cons, Hh.
Qed.

(** X6: a hook added with [AddPreRunHook] runs last, in the world the
    hooks added before it left, and only if none of them failed. *)
Theorem runPreRunHooks_AddPreRunHook f hooks cmd args w :
  runPreRunHooks (AddPreRunHook f hooks) cmd args w =
    match runPreRunHooks hooks cmd args w with
    | (None, w1) =>
        match f cmd args w1 with
        | (Some err, w2) => (Some ("Prerun hook failed: " +:+ err), w2)
        | (None, w2) => (None, w2)
        end
    | (Some err, w1) => (Some err, w1)
    end.
Proof.
  unfold AddPreRunHook. rewrite runPreRunHooks_app.
  destruct (runPreRunHooks hooks cmd args w) as [[err|] w1]; [done|].
  rewrite runPreRunHooks_cons. by destruct (f cmd args w1) as [[err|] w2].
Qed.

End Hooks.

Lemma runPreRunHooks_stops_at_failure_witness :
  runPreRunHooks ([countingHook; countingHook] ++ failingHook :: [countingHook])
                 () ["analyze"%string] 0%nat
  = (Some ("Prerun hook failed: " +:+ "no data")%string, 3%nat).
Proof.
  apply (runPreRunHooks_stops_at_failure
           [countingHook; countingHook] failingHook [countingHook]
           () ["analyze"%string] 0%nat 2%nat 3%nat "no data"%string);
    reflexivity.
Defined.

End HookFacts.

(** ** Binding configuration values to flags *)

Module BindFlagsFacts.
Import cli CliSamples.

Lemma Command_rect_nested (P : Command → Prop) :
  (∀ persistentFlags flags commands,
     Forall P commands → P (mkCommand persistentFlags flags commands)) →
  ∀ cmd, P cmd.
Proof.
  intros Hstep. fix IH 1. intros [persistentFlags flags commands].
  apply Hstep. induction commands as [|sub commands IHc].
  - apply Forall_nil_2.
  - apply Forall_cons_2; [apply IH|apply IHc].
Qed.

Section BindFlags.
Context {Value : Type}.
Variable isSliceValue : Value → bool.
Variable Replace : list string → Value → Value.
Variable SetValue : string → Value → Value.

#[local] Abbreviation Flag := (@Flag Value).
#[local] Abbreviation applyConfig :=
  (applyConfig isSliceValue Replace SetValue).
#[local] Abbreviation bindFlags := (bindFlags isSliceValue Replace SetValue).

Implicit Types (h : gmap nat Flag) (p q : nat) (f : Flag) (viper : Viper).
Implicit Types (set : list nat) (cmd : Command).

Lemma VisitAll_app (fn : Flag → Flag) set1 set2 h :
  VisitAll fn (set1 ++ set2) h = VisitAll fn set2 (VisitAll fn set1 h).
Proof. apply foldl_app. Qed.

Lemma VisitAll_lookup (fn : Flag → Flag) set h p :
  VisitAll fn set h !! p = Nat.iter (occurrences p set) fn <$> h !! p.
Proof.
  revert h. induction set as [|q set IH]; intros h.
  - simpl. by destruct (h !! p).
  - change (VisitAll fn (q :: set) h) with (VisitAll fn set (alter fn q h)).
    rewrite IH, lookup_alter. unfold occurrences. rewrite filter_cons.
    destruct (decide (q = p)) as [->|Hne].
    + rewrite !decide_True by done. simpl length.
      destruct (h !! p) as [f|]; [simpl|done].
      f_equal. by rewrite <- Nat.iter_succ_r.
    + by rewrite !decide_False by done.
Qed.

Lemma applyConfig_Name_Changed viper f :
  Name (applyConfig viper f) = Name f
  ∧ Changed (applyConfig viper f) = Changed f.
Proof.
  unfold cli.applyConfig.
  destruct (negb (Changed f) && IsSet viper (Name f)); [|done].
  by destruct (isSliceValue (FlagValue f)).
Qed.

Lemma applyConfig_skip viper f :
  Changed f = true ∨ IsSet viper (Name f) = false →
  applyConfig viper f = f.
Proof.
  unfold cli.applyConfig. intros [->| ->]; [done|].
  by rewrite andb_false_r.
Qed.

Lemma iter_fixed {A : Type} (g : A → A) (x : A) (n : nat) :
  g x = x → Nat.iter n g x = x.
Proof. intros Hx. induction n as [|n IH]; simpl; [done|]. by rewrite IH. Qed.

(** [bindFlags] is one pass of the visiting function over the flags of
    the command tree, taken command by command: persistent flags, then
    flags, then the subcommands in order. *)
Lemma bindFlags_visited viper cmd h :
  bindFlags viper cmd h = VisitAll (applyConfig viper) (visited cmd) h.
Proof.
  revert h. induction cmd as [persistentFlags flags commands IH]
    using Command_rect_nested. intros h.
  simpl. rewrite !VisitAll_app.
  generalize (VisitAll (applyConfig viper) flags
                (VisitAll (applyConfig viper) persistentFlags h)).
  induction IH as [|sub commands Hsub _ IHc]; intros h'; [done|].
  rewrite VisitAll_app, <- Hsub. apply IHc.
Qed.

(** X7: what [bindFlags] does to one flag.  The flag behind a pointer
    gets the configuration applied once for each time the pointer is
    visited in the command tree; pointers outside the tree and pointers
    that are not allocated stay as they are. *)
Theorem bindFlags_lookup viper cmd h p :
  bindFlags viper cmd h !! p
  = Nat.iter (occurrences p (visited cmd)) (applyConfig viper) <$> h !! p.
Proof. rewrite bindFlags_visited. apply VisitAll_lookup. Qed.

(** X8: the command line wins over the configuration: a flag that was
    changed on the command line, or for which the configuration has no
    value, still has its value after [bindFlags], wherever it sits in the
    command tree. *)
Theorem bindFlags_keeps viper cmd h p f :
  h !! p = Some f →
  Changed f = true ∨ IsSet viper (Name f) = false →
  bindFlags viper cmd h !! p = Some f.
Proof.
  intros Hp Hskip. rewrite bindFlags_visited, VisitAll_lookup, Hp. simpl.
  f_equal. apply iter_fixed. by apply applyConfig_skip.
Qed.

(** X9: [bindFlags] writes values only: no flag appears or disappears,
    and every flag keeps its name and its [Changed] mark (so a value
    taken from the configuration does not count as given on the command
    line). *)
Theorem bindFlags_Name_Changed viper cmd h p :
  (λ f, (Name f, Changed f)) <$> bindFlags viper cmd h !! p
  = (λ f, (Name f, Changed f)) <$> h !! p.
Proof.
  rewrite bindFlags_visited, VisitAll_lookup.
  destruct (h !! p) as [f|]; [simpl|done]. f_equal.
  induction (occurrences p (visited cmd)) as [|n IH]; [done|].
  simpl. destruct (applyConfig_Name_Changed viper
                     (Nat.iter n (applyConfig viper) f)) as [-> ->].
  apply IH.
Qed.

End BindFlags.

Lemma bindFlags_keeps_witness :
  bindFlags sampleIsSlice sampleReplace sampleSet sampleViper sampleRoot
            sampleHeap !! 0%nat
  = Some datapathFlag.
Proof.
  apply (bindFlags_keeps sampleIsSlice sampleReplace sampleSet
           sampleViper sampleRoot sampleHeap 0%nat datapathFlag).
  - reflexivity.
  - left. reflexivity.
Defined.

(** On the sample, the flag that was not given on the command line
    takes the value of the configuration. *)
Example bindFlags_sample_loglevel :
  FlagValue <$>
    bindFlags sampleIsSlice sampleReplace sampleSet sampleViper sampleRoot
              sampleHeap !! 1%nat
  = Some (StringValue "fromconfig").
Proof. reflexivity. Qed.

End BindFlagsFacts.

(** ** More on [MapSID] *)

Module MapSIDMore.
Import windowssecurity analyze SIDFacts MapSIDFacts Samples.

(** X10: a remap never changes the relative identifier: the last
    component of the result is the last component of the input. *)
Theorem MapSID_keeps_RID (original new input : SID) :
  RID (MapSID original new input) = RID input.
Proof.
  destruct (decide (Components input = Components original + 1
                    ∧ StripRID input = original)) as [[Hlen Hstrip]|Hno].
  - rewrite MapSID_match by done. apply RID_AddComponent.
  - by rewrite MapSID_no_match.
Qed.

(** X11: a remap that took place can be undone: remapping the result
    with the two prefixes exchanged gives the input back. *)
Theorem MapSID_round_trip (original new input : SID) :
  Components input = Components original + 1 ∧ StripRID input = original →
  MapSID new original (MapSID original new input) = input.
Proof.
  intros [rid ->]%remap_condition_child.
  by rewrite !MapSID_child.
Qed.

Lemma MapSID_round_trip_witness :
  MapSID (S_1_5_21 BBB) (S_1_5_21 AAA)
    (MapSID (S_1_5_21 AAA) (S_1_5_21 BBB)
            (AddComponent (S_1_5_21 AAA) 1001))
  = AddComponent (S_1_5_21 AAA) 1001.
Proof.
  apply (MapSID_round_trip (S_1_5_21 AAA) (S_1_5_21 BBB)
           (AddComponent (S_1_5_21 AAA) 1001)).
  split; reflexivity.
Defined.

(** X12: between two prefixes with the same number of components, a
    remap keeps the number of components of every SID. *)
Theorem MapSID_keeps_Components (original new input : SID) :
  Components new = Components original →
  Components (MapSID original new input) = Components input.
Proof.
  intros Hsame.
  destruct (decide (Components input = Components original + 1
                    ∧ StripRID input = original)) as [[Hlen Hstrip]|Hno].
  - rewrite MapSID_match by done. rewrite Components_AddComponent. lia.
  - by rewrite MapSID_no_match.
Qed.

Lemma MapSID_keeps_Components_witness :
  Components (MapSID (S_1_5_21 AAA) (S_1_5_21 BBB)
                     (AddComponent (S_1_5_21 AAA) 1001))
  = Components (AddComponent (S_1_5_21 AAA) 1001).
Proof.
  apply (MapSID_keeps_Components (S_1_5_21 AAA) (S_1_5_21 BBB)
           (AddComponent (S_1_5_21 AAA) 1001)).
  reflexivity.
Defined.

(** X13: remapping a prefix to itself changes no SID. *)
Theorem MapSID_same_prefix (prefix input : SID) :
  MapSID prefix prefix input = input.
Proof.
  destruct (decide (Components input = Components prefix + 1
                    ∧ StripRID input = prefix)) as [Hcond|Hno].
  - apply remap_condition_child in Hcond as [rid ->]. apply MapSID_child.
  - by apply MapSID_no_match.
Qed.



(** X15: remaps chain: for a SID directly below the first prefix,
    remapping from the first to a second prefix and then from the second
    to a third is the remap from the first to the third. *)
Theorem MapSID_chain (first second third input : SID) :
  Components input = Components first + 1 ∧ StripRID input = first →
  MapSID second third (MapSID first second input)
  = MapSID first third input.
Proof.
  intros [rid ->]%remap_condition_child.
  by rewrite !MapSID_child.
Qed.

Lemma MapSID_chain_witness :
  MapSID (S_1_5_21 BBB) (S_1_5_21 CCC)
    (MapSID (S_1_5_21 AAA) (S_1_5_21 BBB)
            (AddComponent (S_1_5_21 AAA) 1001))
  = MapSID (S_1_5_21 AAA) (S_1_5_21 CCC)
           (AddComponent (S_1_5_21 AAA) 1001).
Proof.
  apply (MapSID_chain (S_1_5_21 AAA) (S_1_5_21 BBB) (S_1_5_21 CCC)
           (AddComponent (S_1_5_21 AAA) 1001)).
  split; reflexivity.
Defined.

End MapSIDMore.

(** ** The registrations of the analyzer *)

Module AnalyzerFacts.
Import engine analyze analyzeVars CalculatorFacts.

(** X16: every edge variable of the analyzer has a handle of its own,
    and the descriptor behind it carries the name the source registers
    it under; likewise no two attribute variables share a handle. *)
Theorem analyzer_handles_distinct :
  NoDup (edgeVars V).*2
  ∧ Forall (λ ne, Name <$> infos !! ne.2 = Some ne.1) (edgeVars V)
  ∧ length infos = length (edgeVars V)
  ∧ NoDup (attributeVars V).*2.
Proof.
  split; [|split; [|split]].
  - apply (bool_decide_unpack _). vm_compute. exact I.
  - unfold edgeVars.
    repeat (apply Forall_cons_2; [reflexivity|]). apply Forall_nil_2.
  - reflexivity.
  - apply (bool_decide_unpack _). vm_compute. exact I.
Qed.

(** X17: the edge kinds tagged "Informative" by the analyzer are
    [SIDCollision] and [Publishes], and no others. *)
Theorem analyzer_informative (e : Edge) :
  Informative infos e = true
  ↔ e = EdgeSIDCollision V ∨ e = EdgePublishes V.
Proof.
  split.
  - intros Hinf.
    destruct (decide (e < length infos)%nat) as [Hlt|Hge].
    + change (length infos) with 36%nat in Hlt.
      do 36 (destruct e as [|e];
             [first [by left | by right | discriminate Hinf]|]).
      lia.
    + unfold Informative, HasTag in Hinf.
      rewrite lookup_ge_None_2 in Hinf by lia. discriminate Hinf.
  - by intros [-> | ->].
Qed.

(** X18: no calculator of the analyzer looks at its arguments: each
    returns one fixed probability for every source and target. *)
Theorem calculators_are_constant :
  Forall (λ f, ∃ p, ∀ source target, f source target = Return p)
         (calculators infos).
Proof.
  rewrite calculators_infos.
  repeat (apply Forall_cons_2; [eexists; intros source target; reflexivity|]).
  apply Forall_nil_2.
Qed.

End AnalyzerFacts.
